(** * Thermal circuit of the cubic room with feedback (t03CubeFB.py)

    Shallow embedding of the script [src/t03/t03CubeFB.py]: the physical
    data and the conductance diagonal, the incidence matrix, the input
    vector, the steady-state solve on the differential-algebraic system,
    the stability bound and the two Euler time loops.

    Numbers.  The script computes in binary64.  Here the physical constants
    are exact rationals ([Q], binary integers, so that they evaluate) and the
    linear algebra is stated over an arbitrary field [F] (a real field where
    an order is needed): every statement below is about the exact-arithmetic
    reading of the program, rounding is not modelled.

    Library calls.  [np.linalg.inv] is modelled by its contract: the inverse
    of a nonsingular matrix, [LinAlgError] on a singular one.
    [np.linalg.eig] and [dm4bem.tc2ss] are not part of the script; the first
    is a variable of the section that uses it, the second is never unfolded:
    statements quantify over the matrices it returns. *)

From Stdlib Require Import ZArith QArith.
From HB Require Import structures.
From mathcomp Require Import boot order algebra.

Set Implicit Arguments.
Unset Strict Implicit.
Unset Printing Implicit Defensive.

Import Order.Theory GRing.Theory Num.Theory.

Delimit Scope Q_scope with SQ.
Close Scope Q_scope.

(** ** Physical data (lines 43-350) *)

Module Phys.
Local Open Scope Q_scope.

Definition l : Q := 3.
Definition Sg : Q := l ^ 2.
Definition Sc : Q := 5 * Sg.
Definition Si : Q := Sc.

(** [air = {'Density': 1.2, 'Specific heat': 1000}] *)
Definition air_Density : Q := 1.2.
Definition air_Specific_heat : Q := 1000.

(** The rows of the [wall] data frame. *)
Inductive layer := Concrete | Insulation | Glass.

Definition wall_Conductivity (w : layer) : Q :=
  match w with Concrete => 1.4 | Insulation => 0.027 | Glass => 1.4 end.
Definition wall_Density (w : layer) : Q :=
  match w with Concrete => 2300 | Insulation => 55 | Glass => 2500 end.
Definition wall_Specific_heat (w : layer) : Q :=
  match w with Concrete => 880 | Insulation => 1210 | Glass => 750 end.
Definition wall_Width (w : layer) : Q :=
  match w with Concrete => 0.2 | Insulation => 0.08 | Glass => 0.004 end.
Definition wall_Surface (w : layer) : Q :=
  match w with Concrete => 5 * l ^ 2 | Insulation => 5 * l ^ 2 | Glass => l ^ 2 end.

(** Radiative properties and the Stefan-Boltzmann constant. *)
Definition eps_wLW : Q := 0.85.
Definition eps_gLW : Q := 0.90.
Definition alpha_wSW : Q := 0.25.
Definition alpha_gSW : Q := 0.38.
Definition tau_gSW : Q := 0.30.
Definition sigma : Q := 567 # 10000000000.
Definition Fwg : Q := 1 / 5.

(** [h = pd.DataFrame([{'in': 8., 'out': 25}])] *)
Definition h_in : Q := 8.
Definition h_out : Q := 25.

(** [G_cd = wall['Conductivity'] / wall['Width'] * wall['Surface']] *)
Definition G_cd (w : layer) : Q :=
  wall_Conductivity w / wall_Width w * wall_Surface w.

(** [Gw = h * wall['Surface'][0]], [Gg = h * wall['Surface'][2]] *)
Definition Gw_in : Q := h_in * wall_Surface Concrete.
Definition Gw_out : Q := h_out * wall_Surface Concrete.
Definition Gg_in : Q := h_in * wall_Surface Glass.
Definition Gg_out : Q := h_out * wall_Surface Glass.

(** Long-wave exchange, linearised around [Tm]. *)
Definition Tm : Q := 20 + 273.
Definition GLW1 : Q :=
  4 * sigma * Tm ^ 3 * eps_wLW / (1 - eps_wLW) * wall_Surface Insulation.
Definition GLW12 : Q := 4 * sigma * Tm ^ 3 * Fwg * wall_Surface Insulation.
Definition GLW2 : Q :=
  4 * sigma * Tm ^ 3 * eps_gLW / (1 - eps_gLW) * wall_Surface Glass.
Definition GLW : Q := 1 / (1 / GLW1 + 1 / GLW12 + 1 / GLW2).

(** Ventilation. *)
Definition Va : Q := l ^ 3.
Definition ACH : Q := 1.
Definition Va_dot : Q := ACH / 3600 * Va.
Definition Gv : Q := air_Density * air_Specific_heat * Va_dot.

(** The gain of the proportional controller is assigned three times in a
    row (lines 300-302); the value that reaches [G] is the last one. *)
Definition Kp_1 : Q := 10000.
Definition Kp_2 : Q := 0.001.
Definition Kp : Q := 0.

(** [Ggs = float(1 / (1 / Gg['out'] + 1 / (2 * G_cd['Glass'])))] *)
Definition Ggs : Q := 1 / (1 / Gg_out + 1 / (2 * G_cd Glass)).

(** Capacities. *)
Definition C_wall (w : layer) : Q :=
  wall_Density w * wall_Specific_heat w * wall_Surface w * wall_Width w.
Definition C_Air : Q := air_Density * air_Specific_heat * Va.

(** The list handed to [np.diag] for [G] (lines 555-558). *)
Definition G_diag : seq Q :=
  [:: Gw_out; 2 * G_cd Concrete; 2 * G_cd Concrete;
      2 * G_cd Insulation; 2 * G_cd Insulation;
      GLW; Gw_in; Gg_in; Ggs;
      2 * G_cd Glass; Gv; Kp].

(** The list handed to [np.diag] for [C] (lines 568-569). *)
Definition C_diag : seq Q :=
  [:: 0; C_wall Concrete; 0; C_wall Insulation; 0; 0; C_Air; C_wall Glass].

(** Strict positivity of a rational, as a test that evaluates. *)
Definition Qpos (q : Q) : bool := Z.ltb 0 (Qnum q).
Definition Qzero (q : Q) : bool := Z.eqb 0 (Qnum q).

End Phys.

(** ** The incidence matrix (lines 533-545) *)

(** A numpy array of shape [(m, n)] as its list of rows; an assignment
    [A[i, j] = v] outside the shape raises [IndexError]. *)
Definition zeros (m n : nat) : seq (seq int) := nseq m (nseq n 0%R).

Definition setitem (A : seq (seq int)) (i j : nat) (v : int) :
  option (seq (seq int)) :=
  if (i < size A) && (j < size (nth [::] A i))
  then Some (set_nth [::] A i (set_nth 0%R (nth [::] A i) j v))
  else None.

Definition assign (i j : nat) (v : int) (oA : option (seq (seq int))) :=
  if oA is Some A then setitem A i j v else None.

Definition A_build : option (seq (seq int)) :=
  assign 11 6 1%R (assign 10 6 1%R
  (assign 9 7 (-1)%R (assign 9 5 1%R
  (assign 8 7 1%R
  (assign 7 6 1%R (assign 7 5 (-1)%R
  (assign 6 6 1%R (assign 6 4 (-1)%R
  (assign 5 5 1%R (assign 5 4 (-1)%R
  (assign 4 4 1%R (assign 4 3 (-1)%R
  (assign 3 3 1%R (assign 3 2 (-1)%R
  (assign 2 2 1%R (assign 2 1 (-1)%R
  (assign 1 1 1%R (assign 1 0 (-1)%R
  (assign 0 0 1%R (Some (zeros 12 8))))))))))))))))))))).

Definition A_rows : seq (seq int) :=
  Eval vm_compute in odflt [::] A_build.

(** The flags of the sources handed to [tc2ss] (lines 640-644). *)
Definition flags (n : nat) (idx : seq nat) : seq nat :=
  [seq (i \in idx : nat) | i <- iota 0 n].

Definition b_flags : seq nat := flags 12 [:: 0; 8; 10; 11].
Definition f_flags : seq nat := flags 8 [:: 0; 4; 6; 7].

(** Per row: the number of [+1], of [-1], and of nonzero entries. *)
Definition n_plus (r : seq int) : nat := count (fun x => x == 1%R) r.
Definition n_minus (r : seq int) : nat := count (fun x => x == (-1)%R) r.
Definition n_nonzero (r : seq int) : nat := count (fun x => x != 0%R) r.

Definition incidence_row (r : seq int) : bool :=
  [&& size r == 8, n_plus r <= 1, n_minus r <= 1
    & n_plus r + n_minus r == n_nonzero r].

(** ** Exceptions and results *)

(** [LinAlgError] is what [np.linalg.inv] raises on a singular matrix,
    [ValueError] what [@] raises on operands whose shapes do not agree and
    what [min] raises on an empty sequence.  The script defines no exception
    of its own; [SingularTopologyError] and [IntegrationError] are the error
    kinds of the specification, which no operation below ever returns. *)
Inductive exn :=
  | LinAlgError
  | ValueError
  | SingularTopologyError
  | IntegrationError.

Definition result (T : Type) : Type := (exn + T)%type.

Definition ret {T : Type} (x : T) : result T := inr x.

Definition bind {T U : Type} (r : result T) (k : T -> result U) : result U :=
  match r with inl e => inl e | inr x => k x end.

Notation "x <- r ;; k" := (bind r (fun x => k))
  (at level 100, r at next level, right associativity).

Local Open Scope ring_scope.

(** ** Linear algebra of the script, over a field *)

Section Model.

Variable F : fieldType.

(** [np.linalg.inv(M)] *)
Definition inv n (M : 'M[F]_n) : result 'M[F]_n :=
  if M \in unitmx then inr (invmx M) else inl LinAlgError.

(** Line 686 (and 874):
    [np.linalg.inv(A.T @ G @ A) @ (A.T @ G @ b + f)] *)
Definition steady_state m n (A : 'M[F]_(m, n)) (G : 'M[F]_m)
    (b : 'cV[F]_m) (f : 'cV[F]_n) : result 'cV[F]_n :=
  Ki <- inv (A^T *m G *m A) ;; ret (Ki *m (A^T *m G *m b + f)).

(** Fancy-index assignment [s[idx] = v] on a one-dimensional array;
    an index outside the array raises [IndexError]. *)
Definition put (idx : seq nat) (v : F) (s : seq F) : option (seq F) :=
  if all (fun i => (i < size s)%N) idx
  then Some [seq (if i \in idx then v else nth 0 s i) | i <- iota 0 (size s)]
  else None.

(** [s[np.nonzero(s)]] *)
Definition nonzeros (s : seq F) : seq F := [seq x <- s | x != 0].

(** Line 702: [u = np.hstack([b[np.nonzero(b)], f[np.nonzero(f)]])] *)
Definition hstack_nonzero (b f : seq F) : seq F := nonzeros b ++ nonzeros f.

(** A one-dimensional array read as a column of a given height. *)
Definition col_of_seq n (s : seq F) : 'cV[F]_n := \col_i nth 0 s i.

(** [M @ u] for a matrix of shape [(p, q)] and a one-dimensional [u]:
    [ValueError] unless [u] has [q] entries. *)
Definition matvec p q (M : 'M[F]_(p, q)) (u : seq F) : result 'cV[F]_p :=
  if size u == q then inr (M *m col_of_seq q u) else inl ValueError.

(** Line 712: [yss = (-Cs @ np.linalg.inv(As) @ Bs + Ds) @ u] *)
Definition yss nC nu ny (As : 'M[F]_nC) (Bs : 'M[F]_(nC, nu))
    (Cs : 'M[F]_(ny, nC)) (Ds : 'M[F]_(ny, nu)) (u : seq F) :
    result 'cV[F]_ny :=
  Ai <- inv As ;; matvec ((- Cs) *m Ai *m Bs + Ds) u.

(** *** Time integration *)

Section Euler.

Variables (nC nu : nat).
Variables (dt : F) (As : 'M[F]_nC) (Bs : 'M[F]_(nC, nu)).

(** The arrays [temp_exp], [temp_imp] and [u] are held by columns:
    [nth 0 temp k] is [temp[:, k]]. *)
Definition exp_update (temp : seq 'cV[F]_nC) (u : seq 'cV[F]_nu) (k : nat) :
    seq 'cV[F]_nC :=
  set_nth 0 temp k.+1
    ((1%:M + dt *: As) *m nth 0 temp k + (dt *: Bs) *m nth 0 u k).

Definition imp_update (temp : seq 'cV[F]_nC) (u : seq 'cV[F]_nu) (k : nat) :
    result (seq 'cV[F]_nC) :=
  Mi <- inv (1%:M - dt *: As) ;;
  ret (set_nth 0 temp k.+1 (Mi *m (nth 0 temp k + (dt *: Bs) *m nth 0 u k))).

(** Lines 966-967: the loop of the weather simulation, explicit only,
    [for k in range(u.shape[0] - 1)]. *)
Definition euler_exp (u : seq 'cV[F]_nu) (n : nat) (temp0 : seq 'cV[F]_nC) :
    seq 'cV[F]_nC :=
  foldl (fun temp k => exp_update temp u k) temp0 (iota 0 n.-1).

(** Lines 846-848: the loop of the step response; one pass updates
    [temp_exp] and then [temp_imp], [for k in range(n - 1)]. *)
Definition step_body (u : seq 'cV[F]_nu)
    (acc : result (seq 'cV[F]_nC * seq 'cV[F]_nC)) (k : nat) :
    result (seq 'cV[F]_nC * seq 'cV[F]_nC) :=
  s <- acc ;;
  let te := exp_update s.1 u k in
  ti <- imp_update s.2 u k ;;
  ret (te, ti).

Definition euler_both (u : seq 'cV[F]_nu) (n : nat)
    (temp_exp0 temp_imp0 : seq 'cV[F]_nC) :
    result (seq 'cV[F]_nC * seq 'cV[F]_nC) :=
  foldl (step_body u) (inr (temp_exp0, temp_imp0)) (iota 0 n.-1).

(** Lines 856-857 and 979: [y = Cs @ temp + Ds @ u], column by column. *)
Definition outputs ny (Cs : 'M[F]_(ny, nC)) (Ds : 'M[F]_(ny, nu))
    (temp : seq 'cV[F]_nC) (u : seq 'cV[F]_nu) (n : nat) : seq 'cV[F]_ny :=
  [seq Cs *m nth 0 temp k + Ds *m nth 0 u k | k <- iota 0 n].

End Euler.

End Model.

(** ** Stability bound (line 766) *)

Section Stability.

Variable R : realFieldType.

(** The builtin [min] over a sequence: [ValueError] when it is empty,
    otherwise the first of the smallest items. *)
Definition py_min (s : seq R) : result R :=
  if s is x :: s' then inr (foldl (fun m y => if y < m then y else m) x s')
  else inl ValueError.

(** [np.linalg.eig(As)[0]], the array of the eigenvalues, is numpy's. *)
Variable eig : forall n, 'M[R]_n -> seq R.

(** [dtmax = min(-2. / np.linalg.eig(As)[0])] *)
Definition dtmax n (As : 'M[R]_n) : result R :=
  py_min [seq (- 2%:R) / lam | lam <- eig As].

End Stability.

(** ** The network of the script *)

Section Network.

Variable R : realFieldType.

(** A rational constant of the script, read in [R]. *)
Definition ZtoR (z : Z) : R :=
  match z with
  | Z0 => 0
  | Zpos p => (Pos.to_nat p)%:R
  | Zneg p => - (Pos.to_nat p)%:R
  end.

Definition QtoR (q : Q) : R := ZtoR (Qnum q) / (Pos.to_nat (Qden q))%:R.

(** [A], of shape [(12, 8)]. *)
Definition A : 'M[R]_(12, 8) :=
  \matrix_(i, j) (nth 0 (nth [::] A_rows i) j)%:~R.

(** [G = np.diag([...])], of shape [(12, 12)]. *)
Definition G_row : 'rV[R]_12 := \row_k QtoR (nth 0%SQ Phys.G_diag k).
Definition G : 'M[R]_12 := diag_mx G_row.

(** Lines 669-673: the sources of the steady-state check; [Tsp] is the
    indoor set point, 20 in the script. *)
Definition b_ss (Tsp : R) : seq R :=
  odflt [::] (obind (put [:: 11] Tsp) (put [:: 0; 8; 10] 10%:R (nseq 12 0))).

Definition f_ss : seq R := nseq 8 0.

(** Line 702. *)
Definition u_ss (Tsp : R) : seq R := hstack_nonzero (b_ss Tsp) f_ss.

(** The number of inputs of the reduced model: one per flagged source
    (lines 640-644). *)
Definition n_inputs : nat :=
  count (fun x => x != 0%N) b_flags + count (fun x => x != 0%N) f_flags.

(** Lines 819-820: a column of the input of the step response,
    [u = [To To To Tsp Phio Phii Qaux Phia]]. *)
Definition u_step : seq R := nseq 3 1 ++ nseq 5 0.

(** Lines 945-949: a row of the input of the weather simulation. *)
Definition u_weather (To Ti Phit1 Qa : R) : seq R :=
  [:: To; To; To; Ti;
      QtoR Phys.alpha_wSW * QtoR (Phys.wall_Surface Phys.Concrete) * Phit1;
      QtoR Phys.tau_gSW * QtoR Phys.alpha_wSW
        * QtoR (Phys.wall_Surface Phys.Glass) * Phit1;
      Qa;
      QtoR Phys.alpha_gSW * QtoR (Phys.wall_Surface Phys.Glass) * Phit1].

End Network.

(** ** Auxiliary definitions of the proofs *)

(** The shape both time loops share: pass [k] writes column [k + 1] from
    column [k] of the same array and column [k] of the input. *)
Definition col_loop (F : fieldType) (nC nu : nat)
    (step : 'cV[F]_nC -> 'cV[F]_nu -> 'cV[F]_nC)
    (u : seq 'cV[F]_nu) (j : nat) (temp0 : seq 'cV[F]_nC) : seq 'cV[F]_nC :=
  foldl (fun temp k => set_nth 0 temp k.+1 (step (nth 0 temp k) (nth 0 u k)))
        temp0 (iota 0 j).

(** The two updates as functions of the current column and input. *)
Definition exp_rule (F : fieldType) (nC nu : nat) (dt : F) (As : 'M[F]_nC)
    (Bs : 'M[F]_(nC, nu)) (x : 'cV[F]_nC) (v : 'cV[F]_nu) : 'cV[F]_nC :=
  (1%:M + dt *: As) *m x + (dt *: Bs) *m v.

Definition imp_rule (F : fieldType) (nC nu : nat) (dt : F) (As : 'M[F]_nC)
    (Bs : 'M[F]_(nC, nu)) (x : 'cV[F]_nC) (v : 'cV[F]_nu) : 'cV[F]_nC :=
  invmx (1%:M - dt *: As) *m (x + (dt *: Bs) *m v).

(** The matrix that lines 686 and 874 invert, [A.T @ G @ A]. *)
Definition laplacian (F : fieldType) (m n : nat) (A : 'M[F]_(m, n))
    (G : 'M[F]_m) : 'M[F]_n :=
  A^T *m G *m A.

(** For each node of the script's network, a branch that enters it. *)
Definition branch_into (j : nat) : nat :=
  nth 0%N [:: 0; 1; 2; 3; 4; 5; 6; 8]%N j.

(** A branch into node 0 of a two-node network: node 1 is disconnected. *)
Definition A_island : 'M[rat]_(1, 2) := \matrix_(i, j) ((j : nat) == 0%N)%:R.

(** A one-state system with eigenvalue [-1], and its spectrum. *)
Definition As_decay : 'M[rat]_1 := (- 1)%:M.
Definition eig_decay (n : nat) (M : 'M[rat]_n) : seq rat := [:: - 1].

(** * Properties *)

Example A_build_ok : A_build = Some A_rows.
Proof. by vm_compute. Qed.

(** ** The conductance diagonal *)

Lemma QposP (q : Q) : Phys.Qpos q -> (0 < q)%SQ.
Proof.
rewrite /Phys.Qpos /Qlt /= => /Z.ltb_lt.
by rewrite Z.mul_1_r.
Qed.

Lemma QzeroP (q : Q) : Phys.Qzero q -> (q == 0)%SQ.
Proof.
rewrite /Phys.Qzero /Qeq => Hq.
by have <- := proj1 (Z.eqb_eq _ _) Hq.
Qed.

(** C6.  The eleven conductances of branches 0 to 10 are strictly positive,
    and the twelfth, the one of branch 11, is the controller gain [Kp],
    which the script sets to 0: the diagonal of [G] is not strictly
    positive at branch 11. *)
Theorem G_diag_branch11_zero :
  size Phys.G_diag = 12
  /\ (forall k, (k < 11)%N -> (0 < nth 0%SQ Phys.G_diag k)%SQ)
  /\ nth 0%SQ Phys.G_diag 11 = Phys.Kp
  /\ (nth 0%SQ Phys.G_diag 11 == 0)%SQ
  /\ ~ (0 < nth 0%SQ Phys.G_diag 11)%SQ.
Proof.
split; first by [].
split.
  move=> k lt_k; apply: QposP.
  by do 11![case: k lt_k => [_|k lt_k]; first by vm_compute].
split; first by [].
split; first exact: QzeroP.
by vm_compute.
Qed.

(** ** The incidence matrix *)

(** C7.  [A] has 12 rows of 8 entries; every row has at most one [+1], at
    most one [-1] and nothing else but zeros; the rows with exactly one
    nonzero entry are rows 0, 8, 10 and 11, which are also exactly the
    branches flagged as carrying a temperature source. *)
Theorem incidence_rows_shape :
  size A_rows = 12
  /\ all incidence_row A_rows
  /\ [seq i <- iota 0 12 | n_nonzero (nth [::] A_rows i) == 1%N]
     = [:: 0; 8; 10; 11]%N
  /\ [seq i <- iota 0 12 | nth 0%N b_flags i != 0%N] = [:: 0; 8; 10; 11]%N.
Proof. by vm_compute. Qed.

(** ** The steady-state solve *)

Section SteadyState.

Variable F : fieldType.
Variables (m n : nat).
Implicit Types (A : 'M[F]_(m, n)) (G : 'M[F]_m) (b : 'cV[F]_m) (f : 'cV[F]_n).

Lemma inv_unit p (M : 'M[F]_p) : M \in unitmx -> inv M = inr (invmx M).
Proof. by rewrite /inv => ->. Qed.

Lemma inv_singular p (M : 'M[F]_p) : M \notin unitmx -> inv M = inl LinAlgError.
Proof. by rewrite /inv => /negbTE ->. Qed.

Lemma steady_state_unit A G b f :
  A^T *m G *m A \in unitmx ->
  steady_state A G b f
  = inr (invmx (A^T *m G *m A) *m (A^T *m G *m b + f)).
Proof. by move=> uK; rewrite /steady_state inv_unit. Qed.

Lemma steady_state_singular A G b f :
  A^T *m G *m A \notin unitmx -> steady_state A G b f = inl LinAlgError.
Proof. by move=> uK; rewrite /steady_state inv_singular. Qed.

(** A node without incident branch: its row of the Laplacian vanishes,
    so the Laplacian is singular. *)
Lemma laplacian_zero_col A G (j : 'I_n) :
  (forall i, A i j = 0) -> A^T *m G *m A \notin unitmx.
Proof.
move=> Aj0; rewrite unitmxE unitfE negbK.
apply/det0P; exists (delta_mx 0 j).
  apply/eqP => /matrixP /(_ 0 j).
  rewrite !mxE !eqxx /= => /eqP.
  by rewrite oner_eq0.
suff e0 : delta_mx 0 j *m A^T = 0 :> 'rV_m by rewrite !mulmxA e0 !mul0mx.
apply/matrixP => i k; rewrite !mxE.
apply: big1 => l _; rewrite !mxE.
case: (l =P j) => [->|_]; first by rewrite Aj0 mulr0.
by rewrite andbF mul0r.
Qed.

(** C2.  When the Laplacian [A^T G A] is invertible the solve returns a
    vector, that vector is [(A^T G A)^-1 (A^T G b + f)], and it satisfies
    [(A^T G A) theta = A^T G b + f]. *)
Theorem steady_state_solves A G b f :
  A^T *m G *m A \in unitmx ->
  exists theta,
    [/\ steady_state A G b f = inr theta,
        theta = invmx (A^T *m G *m A) *m (A^T *m G *m b + f)
      & (A^T *m G *m A) *m theta = A^T *m G *m b + f].
Proof.
move=> uK; exists (invmx (A^T *m G *m A) *m (A^T *m G *m b + f)).
by split; [exact: steady_state_unit | | rewrite mulKVmx].
Qed.

(** C9, as the script has it.  With a node [j] that no branch touches the
    solve raises, and what it raises is numpy's [LinAlgError]. *)
Theorem steady_state_disconnected A G b f (j : 'I_n) :
  (forall i, A i j = 0) -> steady_state A G b f = inl LinAlgError.
Proof. by move=> /(laplacian_zero_col G) /steady_state_singular ->. Qed.

End SteadyState.

Lemma A_island_col1 (i : 'I_1) : A_island i (lift ord0 ord0) = 0.
Proof. by rewrite mxE. Qed.

Lemma steady_state_solves_witness :
  exists theta : 'cV[rat]_1,
    [/\ steady_state (1%:M : 'M[rat]_1) 1%:M 0 0 = inr theta,
        theta = invmx ((1%:M)^T *m 1%:M *m 1%:M) *m ((1%:M)^T *m 1%:M *m 0 + 0)
      & ((1%:M)^T *m 1%:M *m 1%:M) *m theta = (1%:M)^T *m 1%:M *m 0 + 0].
Proof.
apply: steady_state_solves.
by rewrite trmx1 !mulmx1 unitmx1.
Defined.

Lemma steady_state_disconnected_witness :
  steady_state A_island 1%:M 0 0 = inl LinAlgError.
Proof.
apply: (@steady_state_disconnected _ _ _ A_island 1%:M 0 0 (lift ord0 ord0)).
exact: A_island_col1.
Defined.

(** C9, as the specification words it, fails: on the two-node network
    above the solve does not raise [SingularTopologyError]. *)
Lemma steady_state_island_not_topology_error :
  (forall i, A_island i (lift ord0 ord0) = 0)
  /\ steady_state A_island 1%:M 0 0 <> inl SingularTopologyError.
Proof.
split; first exact: A_island_col1.
rewrite (steady_state_singular _ _ (laplacian_zero_col _ A_island_col1)).
by [].
Qed.

(** ** The input vector of the steady-state check *)

Section Inputs.

Variable R : realFieldType.

Lemma b_ssE (Tsp : R) :
  b_ss Tsp = [:: 10%:R; 0; 0; 0; 0; 0; 0; 0; 10%:R; 0; 10%:R; Tsp].
Proof. by []. Qed.

Lemma u_ssE (Tsp : R) :
  u_ss Tsp = [:: 10%:R; 10%:R; 10%:R] ++ [seq x <- [:: Tsp] | x != 0].
Proof.
by rewrite /u_ss /hstack_nonzero /f_ss /nonzeros b_ssE /= !eqxx /= pnatr_eq0 /= cats0.
Qed.

Lemma size_u_ss (Tsp : R) : size (u_ss Tsp) = (3 + (Tsp != 0%R))%N.
Proof. by rewrite u_ssE /=; case: (Tsp != 0). Qed.

Lemma n_inputsE : n_inputs = 8.
Proof. by []. Qed.

(** C8, as the script has it.  On the sources of the steady-state check
    [u] keeps the four temperature sources and none of the four flow
    sources, whose values are zero: it has 4 entries, where the reduced
    model has 8 inputs and the two dynamic simulations feed 8. *)
Theorem u_ss_has_four_entries :
  [/\ u_ss (20%:R : R) = [:: 10%:R; 10%:R; 10%:R; 20%:R],
      size (u_ss (20%:R : R)) = 4,
      n_inputs = 8,
      size (u_step R) = 8
    & forall To Ti Phit1 Qa : R, size (u_weather To Ti Phit1 Qa) = 8].
Proof.
have e : u_ss (20%:R : R) = [:: 10%:R; 10%:R; 10%:R; 20%:R].
  by rewrite u_ssE /= pnatr_eq0.
by split=> //; rewrite e.
Qed.

(** C1, as the script has it.  Whatever matrices the reduction returns for
    the 8 flagged sources, the steady-state output [yss] is never computed:
    the inversion of a singular [As] raises [LinAlgError], and otherwise
    the product with the 4-entry [u] raises [ValueError]. *)
Theorem yss_raises nC ny (As : 'M[R]_nC) (Bs : 'M[R]_(nC, n_inputs))
    (Cs : 'M[R]_(ny, nC)) (Ds : 'M[R]_(ny, n_inputs)) (Tsp : R) :
  yss As Bs Cs Ds (u_ss Tsp)
  = inl (if As \in unitmx then ValueError else LinAlgError).
Proof.
rewrite /yss /inv; case: ifP => _ //=.
by rewrite /matvec size_u_ss; case: (Tsp != 0).
Qed.

End Inputs.

(** ** The time loops *)

Section Loops.

Variable F : fieldType.
Variables (nC nu : nat).
Variable step : 'cV[F]_nC -> 'cV[F]_nu -> 'cV[F]_nC.
Variable u : seq 'cV[F]_nu.
Variable temp0 : seq 'cV[F]_nC.

Local Notation loop := (col_loop step u).

Lemma col_loopS j :
  loop j.+1 temp0
  = set_nth 0 (loop j temp0) j.+1
      (step (nth 0 (loop j temp0) j) (nth 0 u j)).
Proof.
rewrite /col_loop.
have -> : iota 0 j.+1 = iota 0 j ++ [:: j] by rewrite -addn1 iotaD add0n.
by rewrite /col_loop foldl_cat.
Qed.

(** Every write stays inside the array. *)
Lemma size_col_loop j : (j < size temp0)%N -> size (loop j temp0) = size temp0.
Proof.
elim: j => [//|j IH] lt_j.
rewrite col_loopS size_set_nth IH; first exact: ltnW.
exact/maxn_idPr.
Qed.

(** Pass [j] leaves every column but [j + 1] as it was. *)
Lemma nth_col_loop_other j i :
  i != j.+1 -> nth 0 (loop j.+1 temp0) i = nth 0 (loop j temp0) i.
Proof. by move=> ne_i; rewrite col_loopS nth_set_nth /= (negbTE ne_i). Qed.

(** A column is final once its pass is over. *)
Lemma nth_col_loop_stable j j' i :
  (i <= j)%N -> (j <= j')%N -> nth 0 (loop j' temp0) i = nth 0 (loop j temp0) i.
Proof.
move=> le_ij; elim: j' => [|j' IH]; first by rewrite leqn0 => /eqP ->.
rewrite leq_eqVlt => /orP [/eqP -> //|]; rewrite ltnS => le_j.
rewrite nth_col_loop_other; first by rewrite neq_ltn ltnS (leq_trans le_ij le_j).
exact: IH.
Qed.

(** Columns that no pass has reached yet are the initial ones. *)
Lemma nth_col_loop_later j i :
  (j < i)%N -> nth 0 (loop j temp0) i = nth 0 temp0 i.
Proof.
elim: j => [//|j IH] lt_j.
rewrite nth_col_loop_other; first by rewrite neq_ltn lt_j orbT.
exact: IH (ltnW lt_j).
Qed.

Lemma nth_col_loop0 j : nth 0 (loop j temp0) 0 = nth 0 temp0 0.
Proof. by rewrite (@nth_col_loop_stable 0 j 0). Qed.

(** The recurrence, read on the final array. *)
Lemma nth_col_loop_rec j k :
  (k < j)%N ->
  nth 0 (loop j temp0) k.+1
  = step (nth 0 (loop j temp0) k) (nth 0 u k).
Proof.
move=> lt_k.
rewrite (@nth_col_loop_stable k.+1 j k.+1) // col_loopS nth_set_nth /= eqxx.
by rewrite (@nth_col_loop_stable k j k) // ltnW.
Qed.

End Loops.

Section EulerTheory.

Variable F : fieldType.
Variables (nC nu : nat).
Variables (dt : F) (As : 'M[F]_nC) (Bs : 'M[F]_(nC, nu)).
Variable u : seq 'cV[F]_nu.

Lemma euler_expE n temp0 :
  euler_exp dt As Bs u n temp0 = col_loop (exp_rule dt As Bs) u n.-1 temp0.
Proof. by []. Qed.

Lemma step_body_raised e k : step_body dt As Bs u (inl e) k = inl e.
Proof. by []. Qed.

Lemma foldl_step_body_raised e ks :
  foldl (step_body dt As Bs u) (inl e) ks = inl e.
Proof. by elim: ks => [|k ks IH]. Qed.

Lemma step_body_unit te ti k :
  1%:M - dt *: As \in unitmx ->
  step_body dt As Bs u (inr (te, ti)) k
  = inr (set_nth 0 te k.+1 (exp_rule dt As Bs (nth 0 te k) (nth 0 u k)),
         set_nth 0 ti k.+1 (imp_rule dt As Bs (nth 0 ti k) (nth 0 u k))).
Proof. by move=> uM; rewrite /step_body /imp_update /= inv_unit. Qed.

Lemma step_body_singular s k :
  1%:M - dt *: As \notin unitmx ->
  step_body dt As Bs u (inr s) k = inl LinAlgError.
Proof. by move=> uM; rewrite /step_body /imp_update /= inv_singular. Qed.

(** With an invertible [I - dt As] the step-response loop computes the
    two trajectories side by side. *)
Lemma euler_both_unit n te0 ti0 :
  1%:M - dt *: As \in unitmx ->
  euler_both dt As Bs u n te0 ti0
  = inr (col_loop (exp_rule dt As Bs) u n.-1 te0,
         col_loop (imp_rule dt As Bs) u n.-1 ti0).
Proof.
move=> uM; rewrite /euler_both; elim: n.-1 => [//|j IH].
have -> : iota 0 j.+1 = iota 0 j ++ [:: j] by rewrite -addn1 iotaD add0n.
rewrite foldl_cat IH -[foldl _ _ [:: j]]/(step_body dt As Bs u _ j).
by rewrite step_body_unit // !col_loopS.
Qed.

(** With a singular [I - dt As] the first pass raises. *)
Lemma euler_both_singular n te0 ti0 :
  1%:M - dt *: As \notin unitmx -> (1 < n)%N ->
  euler_both dt As Bs u n te0 ti0 = inl LinAlgError.
Proof.
move=> uM; case: n => [|[|n]] // _.
rewrite /euler_both -[iota 0 _]/(0%N :: iota 1 n).
rewrite -[foldl _ _ (_ :: _)]/(foldl _ (step_body dt As Bs u _ 0%N) _).
by rewrite step_body_singular // foldl_step_body_raised.
Qed.

(** C3.  On an array of [n] columns the explicit loop keeps the shape and
    the initial column, and every later column is
    [(I + dt As) theta_k + dt Bs u_k], whatever the step [dt]: nothing
    bounds or clamps it. *)
Theorem euler_exp_recurrence n temp0 :
  size temp0 = n -> size u = n ->
  [/\ size (euler_exp dt As Bs u n temp0) = n,
      nth 0 (euler_exp dt As Bs u n temp0) 0 = nth 0 temp0 0
    & forall k, (k.+1 < n)%N ->
        nth 0 (euler_exp dt As Bs u n temp0) k.+1
        = (1%:M + dt *: As) *m nth 0 (euler_exp dt As Bs u n temp0) k
          + (dt *: Bs) *m nth 0 u k].
Proof.
move=> sz_t _; rewrite euler_expE; split.
- case: n sz_t => [/size0nil -> //|n' sz_t] /=.
  by rewrite size_col_loop sz_t.
- exact: nth_col_loop0.
- move=> k lt_k; rewrite nth_col_loop_rec //.
  by case: n lt_k {sz_t}.
Qed.

(** C4, as the script has it.  When [I - dt As] is invertible the loop of
    the step response returns, and its implicit array keeps the shape and
    the initial column and has
    [theta_(k+1) = (I - dt As)^-1 (theta_k + dt Bs u_k)] at every step.
    When [I - dt As] is singular and the loop runs at all (two columns or
    more), it raises numpy's [LinAlgError].  With one column or none the
    body never runs: nothing is raised and both arrays come back as they
    were, whether [I - dt As] is singular or not. *)
Theorem euler_imp_recurrence n temp_exp0 temp_imp0 :
  size temp_exp0 = n -> size temp_imp0 = n -> size u = n ->
  (1%:M - dt *: As \in unitmx ->
   exists te ti,
     [/\ euler_both dt As Bs u n temp_exp0 temp_imp0 = inr (te, ti),
         size ti = n,
         nth 0 ti 0 = nth 0 temp_imp0 0
       & forall k, (k.+1 < n)%N ->
           nth 0 ti k.+1
           = invmx (1%:M - dt *: As) *m (nth 0 ti k + (dt *: Bs) *m nth 0 u k)])
  /\ (1%:M - dt *: As \notin unitmx -> (1 < n)%N ->
      euler_both dt As Bs u n temp_exp0 temp_imp0 = inl LinAlgError)
  /\ ((n <= 1)%N ->
      euler_both dt As Bs u n temp_exp0 temp_imp0
      = inr (temp_exp0, temp_imp0)).
Proof.
move=> _ sz_t _; split; last first.
  split; first exact: euler_both_singular.
  by case: n {sz_t} => [|[|n']].
move=> uM; rewrite euler_both_unit //.
exists (col_loop (exp_rule dt As Bs) u n.-1 temp_exp0).
exists (col_loop (imp_rule dt As Bs) u n.-1 temp_imp0); split=> //.
- case: n sz_t => [/size0nil -> //|n' sz_t] /=.
  by rewrite size_col_loop sz_t.
- exact: nth_col_loop0.
- move=> k lt_k; rewrite nth_col_loop_rec //.
  by case: n lt_k {sz_t}.
Qed.

End EulerTheory.

Lemma euler_exp_recurrence_witness :
  let u := nseq 3 (const_mx 1 : 'cV[rat]_1) in
  let temp0 := nseq 3 (0 : 'cV[rat]_1) in
  let temp := euler_exp 1 (- 1%:M) 1%:M u 3 temp0 in
  [/\ size temp = 3,
      nth 0 temp 0 = nth 0 temp0 0
    & forall k, (k.+1 < 3)%N ->
        nth 0 temp k.+1
        = (1%:M + 1 *: - 1%:M) *m nth 0 temp k + (1 *: 1%:M) *m nth 0 u k].
Proof.
move=> u temp0 temp.
apply: (@euler_exp_recurrence _ 1 1 1 (- 1%:M) 1%:M u 3 temp0).
- reflexivity.
- reflexivity.
Defined.

Lemma unit_I_minus_dt0 : (1%:M - 1 *: 0 : 'M[rat]_1) \in unitmx.
Proof. by rewrite scaler0 subr0 unitmx1. Qed.

Lemma unit_I_plus_dt : (1%:M - 1 *: - 1%:M : 'M[rat]_1) \in unitmx.
Proof. by rewrite scale1r opprK unitmxE det_mx11 !mxE. Qed.

Lemma singular_I_minus_I : (1%:M - 1 *: 1%:M : 'M[rat]_1) \notin unitmx.
Proof. by rewrite scale1r subrr unitmxE det0 unitr0. Qed.

Lemma euler_imp_recurrence_witness :
  let u := nseq 3 (const_mx 1 : 'cV[rat]_1) in
  let temp0 := nseq 3 (0 : 'cV[rat]_1) in
  exists te ti,
    [/\ euler_both 1 0 1%:M u 3 temp0 temp0 = inr (te, ti),
        size ti = 3,
        nth 0 ti 0 = nth 0 temp0 0
      & forall k, (k.+1 < 3)%N ->
          nth 0 ti k.+1
          = invmx (1%:M - 1 *: 0) *m (nth 0 ti k + (1 *: 1%:M) *m nth 0 u k)].
Proof.
move=> u temp0.
apply: (proj1 (@euler_imp_recurrence _ 1 1 1 0 1%:M u 3 temp0 temp0 _ _ _)).
- reflexivity.
- reflexivity.
- reflexivity.
- exact: unit_I_minus_dt0.
Defined.

(** C4, as the specification words it, fails twice: with a singular
    [I - dt As] a one-column run raises nothing, and a two-column run
    raises [LinAlgError], not [IntegrationError]. *)
Lemma euler_both_singular_not_integration_error :
  [/\ (1%:M - 1 *: 1%:M : 'M[rat]_1) \notin unitmx,
      euler_both 1 (1%:M : 'M[rat]_1) (1%:M : 'M[rat]_1) [:: 0] 1 [:: 0] [:: 0]
      = inr ([:: 0], [:: 0])
    & euler_both 1 (1%:M : 'M[rat]_1) (1%:M : 'M[rat]_1)
        [:: 0; 0] 2 [:: 0; 0] [:: 0; 0]
      <> inl IntegrationError].
Proof.
split; [exact: singular_I_minus_I | by [] |].
by rewrite (euler_both_singular _ _ _ _ singular_I_minus_I).
Qed.

(** ** The stability bound *)

Section StabilityTheory.

Variable R : realFieldType.

Lemma foldl_min_in (x : R) (s : seq R) :
  foldl (fun m y => if y < m then y else m) x s \in x :: s.
Proof.
elim: s x => [|y s IH] x /=; first by rewrite mem_seq1.
case: ifP => _; first by rewrite inE (IH y) orbT.
by have:= IH x; rewrite !inE => /orP [-> //|->]; rewrite !orbT.
Qed.

Lemma foldl_min_le (x : R) (s : seq R) z :
  z \in x :: s -> foldl (fun m y => if y < m then y else m) x s <= z.
Proof.
elim: s x z => [|y s IH] x z /=; first by rewrite mem_seq1 => /eqP ->.
rewrite inE => /orP [/eqP ->|z_in].
  case: ifP => [/ltW lt_yx|_]; last by apply: IH; rewrite mem_head.
  by apply: le_trans lt_yx; apply: IH; rewrite mem_head.
case: ifP => [lt_yx|le_xy]; first exact: IH.
move: z_in; rewrite inE => /orP [/eqP ->|z_in]; last by apply: IH; rewrite inE z_in orbT.
have le_xy' : x <= y by rewrite leNgt le_xy.
by apply: le_trans le_xy'; apply: IH; rewrite mem_head.
Qed.

(** [min] of a nonempty sequence is one of its items and a lower bound. *)
Lemma py_min_spec (s : seq R) :
  s != [::] ->
  exists m, [/\ py_min s = inr m, m \in s & forall z, z \in s -> m <= z].
Proof.
case: s => [//|x s] _; exists (foldl (fun m y => if y < m then y else m) x s).
by split=> //; [exact: foldl_min_in | exact: foldl_min_le].
Qed.

Lemma unit_eigenvalue_neq0 n (M : 'M[R]_n) lam :
  M \in unitmx -> eigenvalue M lam -> lam != 0.
Proof.
rewrite unitmxE unitfE => det_n0 /eigenvalueP [v vM v_n0].
apply: contra_neq det_n0 => lam0; apply/eqP/det0P; exists v => //.
by rewrite vM lam0 scale0r.
Qed.

Variable eig : forall n, 'M[R]_n -> seq R.

(** C5.  When [eig] returns the eigenvalues of [As], these are real (they
    are in [R]), there is at least one, and none is zero ([As] is
    invertible), [dtmax] returns the least of the quotients [-2 / lambda]:
    it is attained at an eigenvalue and it is below the quotient of every
    eigenvalue. *)
Theorem dtmax_is_min n (As : 'M[R]_n) :
  (forall lam, (lam \in eig As) = eigenvalue As lam) ->
  As \in unitmx ->
  (exists lam, eigenvalue As lam) ->
  exists m,
    [/\ dtmax eig As = inr m,
        exists lam, [/\ eigenvalue As lam, lam != 0 & m = (- 2%:R) / lam]
      & forall lam, eigenvalue As lam -> m <= (- 2%:R) / lam].
Proof.
move=> eigP uAs [lam0 ev0].
have ne : [seq (- 2%:R) / lam | lam <- eig As] != [::].
  by move: ev0; rewrite -eigP; case: (eig As).
have [m [min_m /mapP [lam lam_in m_lam] m_le]] := py_min_spec ne.
exists m; split=> //.
  exists lam; split=> //; first by rewrite -eigP.
  by apply: unit_eigenvalue_neq0 uAs _; rewrite -eigP.
by move=> mu; rewrite -eigP => mu_in; apply: m_le; apply: map_f.
Qed.

End StabilityTheory.

Lemma eigenvalue_scalar1 (a lam : rat) :
  eigenvalue (a%:M : 'M[rat]_1) lam = (lam == a).
Proof.
apply/eigenvalueP/eqP => [[v]|->]; last first.
  exists (const_mx 1); first by rewrite mul_mx_scalar.
  by apply/eqP => /matrixP /(_ 0 0); rewrite !mxE => /eqP; rewrite oner_eq0.
rewrite mul_mx_scalar => /eqP; rewrite -subr_eq0 -scalerBl scaler_eq0.
by rewrite subr_eq0 => /orP [/eqP -> //|->].
Qed.

Lemma dtmax_is_min_witness :
  exists m,
    [/\ dtmax eig_decay As_decay = inr m,
        exists lam, [/\ eigenvalue As_decay lam, lam != 0 & m = (- 2%:R) / lam]
      & forall lam, eigenvalue As_decay lam -> m <= (- 2%:R) / lam].
Proof.
apply: dtmax_is_min.
- by move=> lam; rewrite eigenvalue_scalar1 mem_seq1.
- by rewrite unitmxE det_scalar1.
- by exists (- 1); rewrite eigenvalue_scalar1.
Defined.

(** ** The Laplacian of a network *)

Section Laplacian.

Variable R : realFieldType.
Variables (m n : nat).
Variables (A : 'M[R]_(m, n)) (g : 'rV[R]_m).

Local Notation K := (A^T *m diag_mx g *m A).

(** The quadratic form of the Laplacian: a sum over the branches of
    conductance times squared temperature difference. *)
Lemma laplacian_quadratic (v : 'rV[R]_n) :
  (v *m K *m v^T) 0 0 = \sum_k g 0 k * ((v *m A^T) 0 k) ^+ 2.
Proof.
have -> : v *m K *m v^T = (v *m A^T) *m diag_mx g *m (v *m A^T)^T.
  by rewrite trmx_mul trmxK !mulmxA.
rewrite mxE; apply: eq_bigr => k _.
by rewrite mul_mx_diag !mxE mulrAC -expr2 mulrC.
Qed.

(** A vector in the kernel of the Laplacian has no temperature difference
    across any branch of positive conductance. *)
Lemma laplacian_kernel (v : 'rV[R]_n) :
  (forall k, 0 <= g 0 k) -> v *m K = 0 ->
  forall k, 0 < g 0 k -> (v *m A^T) 0 k = 0.
Proof.
move=> g_ge0 vK0 k gk_gt0.
have: \sum_k g 0 k * ((v *m A^T) 0 k) ^+ 2 = 0.
  by rewrite -laplacian_quadratic vK0 mul0mx mxE.
move/psumr_eq0P => /(_ (fun i _ => mulr_ge0 (g_ge0 i) (sqr_ge0 _))) /(_ k isT).
by move/eqP; rewrite mulf_eq0 gt_eqF //= sqrf_eq0 => /eqP.
Qed.

(** A conductance of zero hides the source of its branch. *)
Lemma zero_conductance_hides (b b' : 'cV[R]_m) (k0 : 'I_m) :
  g 0 k0 = 0 -> (forall k, k != k0 -> b k 0 = b' k 0) ->
  diag_mx g *m b = diag_mx g *m b'.
Proof.
move=> gk0 eq_b; rewrite !mul_diag_mx; apply/matrixP => i j; rewrite !mxE.
rewrite !ord1; case: (eqVneq i k0) => [->|/eq_b -> //].
by rewrite gk0 !mul0r.
Qed.

End Laplacian.

(** ** The network of the script *)

Section NetworkTheory.

Variable R : realFieldType.

Lemma Pos_to_nat_gt0 (p : positive) : (0 < Pos.to_nat p)%N.
Proof. by apply/ssrnat.ltP; exact: Pos2Nat.is_pos. Qed.

Lemma QtoR_pos (q : Q) : Phys.Qpos q -> 0 < QtoR R q.
Proof.
case: q => [[|p|p] d] //= _.
by rewrite /QtoR /= divr_gt0 // ltr0n Pos_to_nat_gt0.
Qed.

Lemma QtoR_zero (q : Q) : Phys.Qzero q -> QtoR R q = 0.
Proof. by case: q => [[|p|p] d] //= _; rewrite /QtoR /= mul0r. Qed.

Lemma branch_drop (v : 'rV[R]_8) (k : 'I_12) :
  (v *m (A R)^T) 0 k
  = \sum_(0 <= j < 8) v 0 (inord j) * (nth 0 (nth [::] A_rows k) j)%:~R.
Proof.
rewrite mxE big_mkord; apply: eq_bigr => j _.
by rewrite !mxE inord_val.
Qed.

Lemma G_diag_Qpos k : (k < 11)%N -> Phys.Qpos (nth 0%SQ Phys.G_diag k).
Proof. by do 11![case: k => [_|k]; first by vm_compute]. Qed.

Lemma G_row_pos (k : 'I_12) : (k < 11)%N -> 0 < G_row R 0 k.
Proof. by move=> lt_k; rewrite mxE; apply/QtoR_pos/G_diag_Qpos. Qed.

Lemma G_row_Kp (k : 'I_12) : k = 11%N :> nat -> G_row R 0 k = 0.
Proof. by move=> k11; rewrite mxE k11; apply: QtoR_zero. Qed.

Lemma G_row_ge0 (k : 'I_12) : 0 <= G_row R 0 k.
Proof.
case: (ltnP k 11) => [/G_row_pos /ltW //|le_k].
by rewrite G_row_Kp //; apply/eqP; rewrite eqn_leq le_k -ltnS ltn_ord.
Qed.

Ltac unroll_branch :=
  do 8![rewrite big_ltn //]; rewrite big_geq //= ;
  rewrite ?(mulr0z, mulr1z, mulrN1z, mulr0, mulr1, mulrN1, addr0, add0r).

(** The network is grounded: with the branches 0 to 10 conducting, a
    temperature field without difference across any of them is zero. *)
Lemma grounded (v : 'rV[R]_8) :
  (forall k : 'I_12, (k < 11)%N -> (v *m (A R)^T) 0 k = 0) -> v = 0.
Proof.
move=> drop0.
have e k : (k < 11)%N ->
    \sum_(0 <= j < 8) v 0 (inord j) * (nth 0 (nth [::] A_rows k) j)%:~R = 0.
  move=> lt_k; have lt_k' : (k < 12)%N by exact: ltnW.
  by have:= drop0 (Ordinal lt_k') lt_k; rewrite branch_drop.
have x0 : v 0 (inord 0) = 0 by have:= e 0%N isT; unroll_branch.
have x1 : v 0 (inord 1) = 0.
  by have:= e 1%N isT; unroll_branch; rewrite x0 oppr0 add0r.
have x2 : v 0 (inord 2) = 0.
  by have:= e 2%N isT; unroll_branch; rewrite x1 oppr0 add0r.
have x3 : v 0 (inord 3) = 0.
  by have:= e 3%N isT; unroll_branch; rewrite x2 oppr0 add0r.
have x4 : v 0 (inord 4) = 0.
  by have:= e 4%N isT; unroll_branch; rewrite x3 oppr0 add0r.
have x5 : v 0 (inord 5) = 0.
  by have:= e 5%N isT; unroll_branch; rewrite x4 oppr0 add0r.
have x6 : v 0 (inord 6) = 0.
  by have:= e 6%N isT; unroll_branch; rewrite x4 oppr0 add0r.
have x7 : v 0 (inord 7) = 0 by have:= e 8%N isT; unroll_branch.
have allx j : (j < 8)%N -> v 0 (inord j) = 0.
  by do 8![case: j => [_ //|j]].
by apply/rowP => j; rewrite mxE -[j]inord_val allx.
Qed.

(** Whatever the conductances, provided those of branches 0 to 10 are
    strictly positive and that of branch 11 is not negative, the Laplacian
    of the network is invertible. *)
Lemma laplacian_unit (g : 'rV[R]_12) :
  (forall k : 'I_12, (k < 11)%N -> 0 < g 0 k) -> (forall k, 0 <= g 0 k) ->
  (A R)^T *m diag_mx g *m A R \in unitmx.
Proof.
move=> g_pos g_ge0; rewrite unitmxE unitfE.
apply/negP => /det0P [v /negP v_n0 vK0]; apply: v_n0; apply/eqP.
apply: grounded => k lt_k.
exact: (laplacian_kernel g_ge0 vK0 (g_pos k lt_k)).
Qed.

Lemma G_unit : (A R)^T *m G R *m A R \in unitmx.
Proof. exact: laplacian_unit G_row_pos G_row_ge0. Qed.

Lemma G_diagE (k : 'I_12) : G R k k = G_row R 0 k.
Proof. by rewrite /G mxE eqxx mulr1n. Qed.

Lemma ord12_11 : (inord 11 : 'I_12) = 11%N :> nat.
Proof. by rewrite inordK. Qed.

(** Every node has a branch of positive conductance that enters it:
    branches 0 to 6 for nodes 0 to 6, branch 8 for node 7. *)
Lemma branch_intoP j :
  (j < 8)%N ->
  (branch_into j < 11)%N
  && (nth 0 (nth [::] A_rows (branch_into j)) j == 1 :> int).
Proof. by do 8![case: j => [_|j] //]. Qed.

Lemma node_has_branch (j : 'I_8) :
  exists k : 'I_12, [/\ (k < 11)%N, A R k j != 0 & 0 < G R k k].
Proof.
have /andP [lt_k /eqP Akj] := branch_intoP (ltn_ord j).
have k_val : (inord (branch_into j) : 'I_12) = branch_into j :> nat.
  by rewrite inordK // ltnW.
exists (inord (branch_into j)); split; rewrite ?k_val //.
  by rewrite mxE k_val Akj mulr1z oner_neq0.
by rewrite G_diagE; apply: G_row_pos; rewrite k_val.
Qed.

Lemma steady_state_same (b b' : 'cV[R]_12) (f : 'cV[R]_8) :
  (forall k : 'I_12, (k : nat) != 11%N -> b k 0 = b' k 0) ->
  steady_state (A R) (G R) b f = steady_state (A R) (G R) b' f.
Proof.
move=> eq_b; rewrite /steady_state.
suff -> : (A R)^T *m G R *m b = (A R)^T *m G R *m b' by [].
rewrite -!mulmxA; congr (_ *m _).
apply: (@zero_conductance_hides _ _ _ _ _ (inord 11)).
  by apply: G_row_Kp; exact: ord12_11.
by move=> k; rewrite -val_eqE /= ord12_11 => /eq_b.
Qed.

(** C10.  In the network of the script the conductance of branch 11 is
    [Kp = 0]; two source vectors that differ at most at branch 11 give the
    same steady state, the solve returns it (the Laplacian is invertible),
    and every node has an incident branch of strictly positive
    conductance. *)
Theorem steady_state_ignores_setpoint (b b' : 'cV[R]_12) (f : 'cV[R]_8) :
  (forall k : 'I_12, (k : nat) != 11%N -> b k 0 = b' k 0) ->
  [/\ G R (inord 11) (inord 11) = 0,
      exists theta,
        steady_state (A R) (G R) b f = inr theta
        /\ steady_state (A R) (G R) b' f = inr theta
    & forall j : 'I_8,
        exists k : 'I_12, [/\ (k < 11)%N, A R k j != 0 & 0 < G R k k]].
Proof.
move=> eq_b; split; last exact: node_has_branch.
  by rewrite G_diagE; apply: G_row_Kp; exact: ord12_11.
exists (invmx ((A R)^T *m G R *m A R) *m ((A R)^T *m G R *m b + f)).
by rewrite -(steady_state_same f eq_b) steady_state_unit //; exact: G_unit.
Qed.

End NetworkTheory.

Lemma b_ss_off_setpoint (k : 'I_12) :
  (k : nat) != 11%N ->
  col_of_seq 12 (b_ss (20%:R : rat)) k 0 = col_of_seq 12 (b_ss (25%:R : rat)) k 0.
Proof.
rewrite !mxE !b_ssE; case: k => k lt_k /=.
by do 12![case: k lt_k => [//|k lt_k]].
Qed.

Lemma steady_state_ignores_setpoint_witness :
  [/\ G rat (inord 11) (inord 11) = 0,
      exists theta,
        steady_state (A rat) (G rat) (col_of_seq 12 (b_ss 20%:R))
          (col_of_seq 8 (f_ss rat)) = inr theta
        /\ steady_state (A rat) (G rat) (col_of_seq 12 (b_ss 25%:R))
             (col_of_seq 8 (f_ss rat)) = inr theta
    & forall j : 'I_8,
        exists k : 'I_12, [/\ (k < 11)%N, A rat k j != 0 & 0 < G rat k k]].
Proof.
apply: steady_state_ignores_setpoint.
exact: b_ss_off_setpoint.
Defined.

(** * Further properties of the script *)

(** ** The Laplacian and the solve, for any network *)

Section SolveProperties.

Variable R : realFieldType.
Variables (m n : nat).
Variables (A : 'M[R]_(m, n)) (g : 'rV[R]_m).

Local Notation K := (A^T *m diag_mx g *m A).

(** X1.  With a diagonal conductance matrix the Laplacian [A^T G A] of line
    686 is symmetric. *)
Theorem laplacian_symmetric :
  (laplacian A (diag_mx g))^T = laplacian A (diag_mx g).
Proof. by rewrite /laplacian !trmx_mul trmxK tr_diag_mx mulmxA. Qed.

(** X2.  With conductances that are not negative the Laplacian is positive
    semidefinite: [v K v^T >= 0] for every [v]. *)
Theorem laplacian_psd (v : 'rV[R]_n) :
  (forall k, 0 <= g 0 k) -> 0 <= (v *m laplacian A (diag_mx g) *m v^T) 0 0.
Proof.
move=> g_ge0; rewrite /laplacian laplacian_quadratic.
by apply: sumr_ge0 => k _; apply: mulr_ge0 (g_ge0 k) (sqr_ge0 _).
Qed.

(** X3.  When the solve returns, what it returns is the only solution of
    [(A^T G A) theta = A^T G b + f]. *)
Theorem steady_state_unique (b : 'cV[R]_m) (f : 'cV[R]_n) theta theta' :
  steady_state A (diag_mx g) b f = inr theta ->
  K *m theta' = A^T *m diag_mx g *m b + f ->
  theta' = theta.
Proof.
rewrite /steady_state /inv; case: ifP => // uK [<-] <-.
by rewrite mulKmx.
Qed.

(** X4.  Superposition: when the solve returns, it is linear in the
    sources [(b, f)]. *)
Theorem steady_state_linear (c : R) (b1 b2 : 'cV[R]_m) (f1 f2 : 'cV[R]_n)
    theta1 theta2 :
  steady_state A (diag_mx g) b1 f1 = inr theta1 ->
  steady_state A (diag_mx g) b2 f2 = inr theta2 ->
  steady_state A (diag_mx g) (c *: b1 + b2) (c *: f1 + f2)
  = inr (c *: theta1 + theta2).
Proof.
rewrite /steady_state /inv; case: ifP => // uK [<-] [<-] /=.
congr inr; rewrite scalemxAr -mulmxDr; congr (_ *m _).
by rewrite mulmxDr -scalemxAr scalerDr addrACA.
Qed.

End SolveProperties.

Lemma laplacian_psd_witness :
  0 <= ((1%:M : 'rV[rat]_1)
        *m laplacian (1%:M : 'M[rat]_1) (diag_mx (1%:M : 'rV[rat]_1))
        *m (1%:M)^T) 0 0.
Proof.
apply: laplacian_psd => k.
by rewrite mxE.
Defined.

Lemma laplacian1_unit :
  (1%:M : 'M[rat]_1)^T *m diag_mx (1%:M : 'rV[rat]_1) *m 1%:M \in unitmx.
Proof.
rewrite trmx1 mul1mx mulmx1 unitmxE det_diag big_ord1 mxE.
by [].
Qed.

Lemma steady_state_unique_witness :
  (0 : 'cV[rat]_1)
  = invmx ((1%:M)^T *m diag_mx (1%:M : 'rV[rat]_1) *m 1%:M)
    *m ((1%:M)^T *m diag_mx 1%:M *m 0 + 0).
Proof.
apply: (@steady_state_unique _ 1 1 1%:M 1%:M 0 0).
- exact: steady_state_unit laplacian1_unit.
- by rewrite !mulmx0 addr0.
Defined.

Lemma steady_state_linear_witness :
  steady_state (1%:M : 'M[rat]_1) (diag_mx (1%:M : 'rV[rat]_1))
    (2%:R *: 0 + 0) (2%:R *: 0 + 0)
  = inr (2%:R *: (invmx ((1%:M)^T *m diag_mx (1%:M : 'rV[rat]_1) *m 1%:M)
                  *m ((1%:M)^T *m diag_mx 1%:M *m 0 + 0))
         + invmx ((1%:M)^T *m diag_mx (1%:M : 'rV[rat]_1) *m 1%:M)
           *m ((1%:M)^T *m diag_mx 1%:M *m 0 + 0)).
Proof.
apply: steady_state_linear.
- exact: steady_state_unit laplacian1_unit.
- exact: steady_state_unit laplacian1_unit.
Defined.

(** ** The two Euler schemes *)

Lemma leq_pred_of_ltn k n : (k < n)%N -> (k <= n.-1)%N.
Proof. by case: n. Qed.

Lemma ltn_pred_of_ltn k n : (k.+1 < n)%N -> (k < n.-1)%N.
Proof. by case: n. Qed.

Section SchemeProperties.

Variable F : fieldType.
Variables (nC nu : nat).
Variables (dt : F) (As : 'M[F]_nC) (Bs : 'M[F]_(nC, nu)).
Variable u : seq 'cV[F]_nu.

Lemma col_loop_fixed (step : 'cV[F]_nC -> 'cV[F]_nu -> 'cV[F]_nC)
    (xs : 'cV[F]_nC) (us : 'cV[F]_nu) j temp0 :
  step xs us = xs -> nth 0 temp0 0 = xs ->
  (forall k, (k < j)%N -> nth 0 u k = us) ->
  forall k, (k <= j)%N -> nth 0 (col_loop step u j temp0) k = xs.
Proof.
move=> fix_xs init u_const; elim=> [|k IH] le_k.
  by rewrite nth_col_loop0.
by rewrite nth_col_loop_rec // IH ?u_const // ltnW.
Qed.

(** X5.  On arrays of [n] columns, when [I - dt As] is invertible the
    loop of the step response (lines 846-848) returns, its explicit array is the one the explicit
    loop of lines 966-967 computes from the same data, and its implicit
    array solves the backward difference equation
    [theta_(k+1) = theta_k + dt (As theta_(k+1) + Bs u_k)]. *)
Theorem euler_both_explicit_and_backward n temp_exp0 temp_imp0 :
  size temp_exp0 = n -> size temp_imp0 = n -> size u = n ->
  1%:M - dt *: As \in unitmx ->
  exists ti,
    [/\ euler_both dt As Bs u n temp_exp0 temp_imp0
        = inr (euler_exp dt As Bs u n temp_exp0, ti)
      & forall k, (k.+1 < n)%N ->
          nth 0 ti k.+1
          = nth 0 ti k + dt *: (As *m nth 0 ti k.+1 + Bs *m nth 0 u k)].
Proof.
move=> _ _ _ uM; exists (col_loop (imp_rule dt As Bs) u n.-1 temp_imp0).
split; first by rewrite euler_both_unit.
move=> k lt_k; have lt_k' := ltn_pred_of_ltn lt_k.
set x1 := nth 0 _ k.+1; set x0 := nth 0 _ k.
have Mx1 : (1%:M - dt *: As) *m x1 = x0 + (dt *: Bs) *m nth 0 u k.
  by rewrite /x1 nth_col_loop_rec // /imp_rule mulKVmx.
rewrite scalerDr !scalemxAl [_ *m x1 + _]addrC addrA -Mx1.
by rewrite mulmxBl mul1mx subrK.
Qed.

(** X6.  A steady state of the reduced model, [As xs + Bs us = 0], is a
    fixed point of the explicit loop: on arrays of [n] columns, started
    there under the constant input [us], every column stays at [xs],
    whatever the step. *)
Theorem euler_exp_steady n temp0 (xs : 'cV[F]_nC) (us : 'cV[F]_nu) :
  size temp0 = n -> size u = n ->
  As *m xs + Bs *m us = 0 -> nth 0 temp0 0 = xs ->
  (forall k, (k < n.-1)%N -> nth 0 u k = us) ->
  forall k, (k < n)%N -> nth 0 (euler_exp dt As Bs u n temp0) k = xs.
Proof.
move=> _ _ ss init u_const k lt_k; rewrite euler_expE.
apply: (col_loop_fixed _ init u_const); last exact: leq_pred_of_ltn.
rewrite /exp_rule mulmxDl mul1mx -addrA -!scalemxAl -scalerDr ss.
by rewrite scaler0 addr0.
Qed.

(** X7.  The same steady state is a fixed point of the implicit update of
    the step-response loop, on arrays of [n] columns and with an
    invertible [I - dt As]. *)
Theorem euler_imp_steady n temp_exp0 temp_imp0
    (xs : 'cV[F]_nC) (us : 'cV[F]_nu) :
  size temp_exp0 = n -> size temp_imp0 = n -> size u = n ->
  1%:M - dt *: As \in unitmx ->
  As *m xs + Bs *m us = 0 -> nth 0 temp_imp0 0 = xs ->
  (forall k, (k < n.-1)%N -> nth 0 u k = us) ->
  exists te ti,
    euler_both dt As Bs u n temp_exp0 temp_imp0 = inr (te, ti)
    /\ forall k, (k < n)%N -> nth 0 ti k = xs.
Proof.
move=> _ _ _ uM ss init u_const; rewrite euler_both_unit //.
exists (col_loop (exp_rule dt As Bs) u n.-1 temp_exp0).
exists (col_loop (imp_rule dt As Bs) u n.-1 temp_imp0); split=> // k lt_k.
apply: (col_loop_fixed _ init u_const); last exact: leq_pred_of_ltn.
rewrite /imp_rule -[RHS](mulKmx uM); congr (_ *m _).
rewrite mulmxBl mul1mx -!scalemxAl; apply/eqP.
by rewrite eq_sym subr_eq -addrA -scalerDr [_ *m us + _]addrC ss scaler0 addr0.
Qed.

(** X8.  On arrays of [n] columns and without input the explicit loop
    iterates the matrix [I + dt As]: column [k] is that matrix applied [k] times to the
    initial column. *)
Theorem euler_exp_free n temp0 :
  size temp0 = n -> size u = n ->
  (forall k, (k < n.-1)%N -> nth 0 u k = 0) ->
  forall k, (k < n)%N ->
    nth 0 (euler_exp dt As Bs u n temp0) k
    = iter k (mulmx (1%:M + dt *: As)) (nth 0 temp0 0).
Proof.
move=> _ _ u0; rewrite euler_expE; elim=> [|k IH] lt_k.
  by rewrite nth_col_loop0.
have lt_k' := ltn_pred_of_ltn lt_k.
rewrite nth_col_loop_rec // /exp_rule u0 // mulmx0 addr0 iterS.
by rewrite IH // ltnW.
Qed.

End SchemeProperties.

Lemma euler_both_explicit_and_backward_witness :
  let u := nseq 3 (const_mx 1 : 'cV[rat]_1) in
  let temp0 := nseq 3 (const_mx 2%:R : 'cV[rat]_1) in
  exists ti,
    [/\ euler_both 1 (- 1%:M) 1%:M u 3 temp0 temp0
        = inr (euler_exp 1 (- 1%:M) 1%:M u 3 temp0, ti)
      & forall k, (k.+1 < 3)%N ->
          nth 0 ti k.+1
          = nth 0 ti k + 1 *: (- 1%:M *m nth 0 ti k.+1 + 1%:M *m nth 0 u k)].
Proof.
move=> u temp0.
apply: euler_both_explicit_and_backward.
- reflexivity.
- reflexivity.
- reflexivity.
- exact: unit_I_plus_dt.
Defined.

Lemma decay_steady :
  (- 1%:M : 'M[rat]_1) *m const_mx 1 + 1%:M *m (const_mx 1 : 'cV[rat]_1) = 0.
Proof. by rewrite mulNmx !mul1mx addNr. Qed.

Lemma euler_exp_steady_witness :
  let xs := (const_mx 1 : 'cV[rat]_1) in
  nth 0 (euler_exp 1 (- 1%:M) 1%:M (nseq 3 xs) 3 (nseq 3 xs)) 2 = xs.
Proof.
move=> xs.
apply: (@euler_exp_steady _ 1 1 1 (- 1%:M) 1%:M (nseq 3 xs) 3 (nseq 3 xs) xs xs).
- reflexivity.
- reflexivity.
- exact: decay_steady.
- reflexivity.
- by do 2![case=> //].
- reflexivity.
Defined.

Lemma euler_imp_steady_witness :
  let xs := (const_mx 1 : 'cV[rat]_1) in
  exists te ti,
    euler_both 1 (- 1%:M) 1%:M (nseq 3 xs) 3 (nseq 3 xs) (nseq 3 xs)
    = inr (te, ti)
    /\ forall k, (k < 3)%N -> nth 0 ti k = xs.
Proof.
move=> xs.
apply: (@euler_imp_steady _ 1 1 1 (- 1%:M) 1%:M (nseq 3 xs) 3
          (nseq 3 xs) (nseq 3 xs) xs xs).
- reflexivity.
- reflexivity.
- reflexivity.
- exact: unit_I_plus_dt.
- exact: decay_steady.
- reflexivity.
- by do 2![case=> //].
Defined.

Lemma euler_exp_free_witness :
  let temp0 := nseq 3 (const_mx 1 : 'cV[rat]_1) in
  nth 0 (euler_exp 1 (- 1%:M) 1%:M (nseq 3 0) 3 temp0) 2
  = iter 2 (mulmx (1%:M + 1 *: - 1%:M)) (nth 0 temp0 0).
Proof.
move=> temp0.
apply: (@euler_exp_free _ 1 1 1 (- 1%:M) 1%:M (nseq 3 0) 3 temp0).
- reflexivity.
- reflexivity.
- by do 2![case=> //].
- reflexivity.
Defined.

(** ** The step bound and the explicit scheme *)

Section BoundProperties.

Variable R : realFieldType.
Variable eig : forall n, 'M[R]_n -> seq R.

(** X9.  When every eigenvalue that [eig] returns is negative, [dtmax] is
    a positive step, and for any step between 0 and [dtmax] the
    amplification factor [1 + dt lambda] of the explicit scheme has
    modulus at most 1 on every eigenvalue. *)
Theorem dtmax_stable n (As : 'M[R]_n) :
  eig As != [::] -> (forall lam, lam \in eig As -> lam < 0) ->
  exists m,
    [/\ dtmax eig As = inr m, 0 < m
      & forall dt lam, 0 <= dt <= m -> lam \in eig As ->
          `|1 + dt * lam| <= 1].
Proof.
move=> ne neg.
have ne' : [seq (- 2%:R) / lam | lam <- eig As] != [::] by case: (eig As) ne.
have [m [min_m /mapP [lam0 lam0_in m_lam0] m_le]] := py_min_spec ne'.
exists m; split=> //.
  have lam0_lt0 := neg _ lam0_in.
  by rewrite m_lam0 mulNr -mulrN -invrN divr_gt0 // oppr_gt0.
move=> dt lam /andP [dt_ge0 dt_le] lam_in.
have lam_lt0 := neg _ lam_in.
have dt_le' : dt <= (- 2%:R) / lam.
  by apply: le_trans dt_le _; apply: m_le; apply: map_f.
rewrite ler_norml; apply/andP; split; last first.
  by rewrite -subr_ge0 opprD addNKr oppr_ge0 mulr_ge0_le0 // ltW.
have h : - 2%:R <= dt * lam.
  have := ler_wnM2r (ltW lam_lt0) dt_le'.
  by rewrite divfK // lt_eqF.
by rewrite -lerBlDl; apply: le_trans h; rewrite -opprD.
Qed.

End BoundProperties.

Lemma dtmax_stable_witness :
  exists m,
    [/\ dtmax eig_decay As_decay = inr m, 0 < m
      & forall dt lam, 0 <= dt <= m -> lam \in eig_decay As_decay ->
          `|1 + dt * lam| <= 1].
Proof.
apply: dtmax_stable.
- reflexivity.
- by move=> lam; rewrite mem_seq1 => /eqP ->.
Defined.

(** ** The input vector and the flags of the sources *)

Section InputProperties.

Variable F : fieldType.

Lemma nonzeros_mask (m : bitseq) (v : seq F) :
  size m = size v -> (forall i, ~~ nth false m i -> nth 0 v i = 0) ->
  nonzeros v = nonzeros (mask m v).
Proof.
elim: m v => [|a m IH] [|x v] //= [sz] off0.
have IH' : nonzeros v = nonzeros (mask m v).
  by apply: IH => // i; apply: (off0 i.+1).
case: a off0 => off0 /=; first by rewrite IH'.
by have /= -> := off0 0%N isT; rewrite eqxx.
Qed.

(** X10.  For source vectors that are zero off the flagged positions, the
    vector [u] of line 702 has at most as many entries as there are
    flagged sources, and exactly as many if and only if no flagged source
    has the value zero. *)
Theorem hstack_nonzero_size (mb mf : bitseq) (b f : seq F) :
  size mb = size b -> size mf = size f ->
  (forall i, ~~ nth false mb i -> nth 0 b i = 0) ->
  (forall i, ~~ nth false mf i -> nth 0 f i = 0) ->
  (size (hstack_nonzero b f) <= count id mb + count id mf
    ?= iff all (fun x => x != 0%R) (mask mb b)
           && all (fun x => x != 0%R) (mask mf f))%N.
Proof.
move=> sz_b sz_f off_b off_f.
rewrite /hstack_nonzero size_cat (nonzeros_mask sz_b) // (nonzeros_mask sz_f) //.
rewrite /nonzeros !size_filter -(size_mask sz_b) -(size_mask sz_f).
by apply: leqif_add; split; rewrite ?count_size // -all_count.
Qed.

End InputProperties.

Lemma b_ss_off_flags i :
  ~~ nth false [seq x != 0 | x <- b_flags]%N i ->
  nth 0 (b_ss (20%:R : rat)) i = 0.
Proof. by rewrite b_ssE; do 12![case: i => [//|i]]; case: i. Qed.

Lemma f_ss_off_flags i :
  ~~ nth false [seq x != 0 | x <- f_flags]%N i -> nth 0 (f_ss rat) i = 0.
Proof. by move=> _; rewrite /f_ss nth_nseq; case: ifP. Qed.

Lemma hstack_nonzero_size_witness :
  (size (hstack_nonzero (b_ss (20%:R : rat)) (f_ss rat))
   <= count id [seq x != 0 | x <- b_flags]
      + count id [seq x != 0 | x <- f_flags]
    ?= iff all (fun x => x != 0%R)
             (mask [seq x != 0 | x <- b_flags] (b_ss (20%:R : rat)))
           && all (fun x => x != 0%R)
                (mask [seq x != 0 | x <- f_flags] (f_ss rat)))%N.
Proof.
apply: hstack_nonzero_size.
- reflexivity.
- reflexivity.
- exact: b_ss_off_flags.
- exact: f_ss_off_flags.
Defined.

(** ** The network of the script, for any controller gain *)

Section NetworkProperties.

Variable R : realFieldType.

Lemma ord12_last (k : 'I_12) : (11 <= k)%N -> k = inord 11.
Proof.
move=> le_k; apply: val_inj; rewrite /= inordK //.
by apply/eqP; rewrite eqn_leq le_k -ltnS ltn_ord.
Qed.

(** X11.  On the topology of the script the solve never raises, whatever
    the conductances, provided those of branches 0 to 10 are strictly
    positive and the controller gain on branch 11 is not negative (the
    script tries [1e4], [1e-3] and [0]); what it returns solves
    [(A^T G A) theta = A^T G b + f]. *)
Theorem steady_state_any_gain (g : 'rV[R]_12) (b : 'cV[R]_12) (f : 'cV[R]_8) :
  (forall k : 'I_12, (k < 11)%N -> 0 < g 0 k) -> 0 <= g 0 (inord 11) ->
  exists theta,
    steady_state (A R) (diag_mx g) b f = inr theta
    /\ ((A R)^T *m diag_mx g *m A R) *m theta = (A R)^T *m diag_mx g *m b + f.
Proof.
move=> g_pos g11.
have g_ge0 k : 0 <= g 0 k.
  by case: (ltnP k 11) => [/g_pos /ltW //|/ord12_last ->].
have uK := laplacian_unit g_pos g_ge0.
exists (invmx ((A R)^T *m diag_mx g *m A R) *m ((A R)^T *m diag_mx g *m b + f)).
by rewrite steady_state_unit // mulKVmx.
Qed.

Lemma A_row_sum (T0 : R) (k : 'I_12) :
  (A R *m (const_mx T0 : 'cV_8)) k 0
  = \sum_(0 <= j < 8) (nth 0 (nth [::] A_rows k) j)%:~R * T0.
Proof.
rewrite mxE big_mkord; apply: eq_bigr => j _.
by rewrite !mxE.
Qed.

Ltac unroll_row :=
  do 8![rewrite big_ltn //]; rewrite big_geq //= ;
  rewrite ?(mulr0z, mulr1z, mulrN1z, mul0r, mul1r, mulN1r, addr0, add0r);
  rewrite ?(addNr, subrr).

(** Across a branch between two nodes a uniform temperature field has no
    difference; across the branches 0, 8 and 10, which come from outside,
    it has its own value. *)
Lemma A_uniform (T0 : R) (k : 'I_12) :
  (k < 11)%N ->
  (A R *m (const_mx T0 : 'cV_8)) k 0
  = if (k : nat) \in [:: 0; 8; 10]%N then T0 else 0.
Proof.
rewrite A_row_sum; case: k => k lt_k /=.
by do 11![case: k lt_k => [_ _|k lt_k]; first by unroll_row].
Qed.

(** X12.  With the gain [Kp = 0] of the script, no heat-flow source and
    the three outdoor temperature sources (branches 0, 8, 10) at the same
    value [T0], the steady state is [T0] at every node, whatever the
    set point on branch 11 (lines 669-686, and 870-874 with [T0 = 1]). *)
Theorem steady_state_uniform (T0 : R) (b : 'cV[R]_12) :
  (forall k : 'I_12, (k : nat) \in [:: 0; 8; 10]%N -> b k 0 = T0) ->
  (forall k : 'I_12, (k : nat) \notin [:: 0; 8; 10; 11]%N -> b k 0 = 0) ->
  steady_state (A R) (G R) b (col_of_seq 8 (f_ss R)) = inr (const_mx T0).
Proof.
move=> b_out b_off.
have -> : col_of_seq 8 (f_ss R) = 0.
  by apply/colP => j; rewrite !mxE /f_ss nth_nseq; case: ifP.
rewrite (steady_state_unit _ _ (G_unit R)).
congr inr; rewrite addr0 -[RHS](mulKmx (G_unit R)); congr (_ *m _).
rewrite -!mulmxA; congr (_ *m _).
apply: (@zero_conductance_hides _ _ _ _ _ (inord 11)).
  by apply: G_row_Kp; exact: ord12_11.
move=> k ne_k; have lt_k : (k < 11)%N.
  by rewrite ltnNge; apply: contra_neqN ne_k => /ord12_last.
rewrite A_uniform //; case: ifP => [/b_out //|/negbT k_nin].
apply: b_off; move: k_nin; rewrite !inE !negb_or => /and3P [-> -> ->] /=.
by rewrite neq_ltn lt_k.
Qed.

End NetworkProperties.

Lemma steady_state_any_gain_witness :
  exists theta,
    steady_state (A rat) (diag_mx (G_row rat)) (col_of_seq 12 (b_ss 20%:R))
      (col_of_seq 8 (f_ss rat)) = inr theta
    /\ ((A rat)^T *m diag_mx (G_row rat) *m A rat) *m theta
       = (A rat)^T *m diag_mx (G_row rat) *m col_of_seq 12 (b_ss 20%:R)
         + col_of_seq 8 (f_ss rat).
Proof.
apply: steady_state_any_gain.
- exact: G_row_pos.
- exact: G_row_ge0.
Defined.

Lemma b_ss_outdoor (k : 'I_12) :
  (k : nat) \in [:: 0; 8; 10]%N ->
  col_of_seq 12 (b_ss (20%:R : rat)) k 0 = 10%:R.
Proof.
rewrite !mxE b_ssE; case: k => k lt_k /=.
by do 12![case: k lt_k => [//|k lt_k]].
Qed.

Lemma b_ss_elsewhere (k : 'I_12) :
  (k : nat) \notin [:: 0; 8; 10; 11]%N ->
  col_of_seq 12 (b_ss (20%:R : rat)) k 0 = 0.
Proof.
rewrite !mxE b_ssE; case: k => k lt_k /=.
by do 12![case: k lt_k => [//|k lt_k]].
Qed.

Lemma steady_state_uniform_witness :
  steady_state (A rat) (G rat) (col_of_seq 12 (b_ss 20%:R))
    (col_of_seq 8 (f_ss rat))
  = inr (const_mx 10%:R).
Proof.
apply: steady_state_uniform.
- exact: b_ss_outdoor.
- exact: b_ss_elsewhere.
Defined.
